(** * Bit layouts of IEEE 754 binary floating-point types

    A shallow embedding of [boost/charconv/detail/bit_layouts.hpp]:
    the four constant tables [ieee754_binary32], [ieee754_binary64],
    [ieee754_binary80], [ieee754_binary128], the preprocessor chain that
    picks the [long double] overlay [IEEEl2bits], and the fixed overlay
    [IEEEbinary128].

    The header holds declarations only.  Reading and writing the
    bit-field members of an overlay is modelled in the second half of the
    file, on unbounded integers ([Z]) with the masks written out. *)

From Stdlib Require Import ZArith QArith List Bool Lia.
Import ListNotations.
Local Open Scope Z_scope.

(** ** Format descriptors *)

(** The six [static constexpr int] members every [ieee754_binaryNN]
    struct of the header declares. *)
Record FormatDescriptor : Type := Descriptor {
  significand_bits : Z;
  exponent_bits : Z;
  min_exponent : Z;
  max_exponent : Z;
  exponent_bias : Z;
  decimal_digits : Z
}.

Definition ieee754_binary32 : FormatDescriptor :=
  {| significand_bits := 23;
     exponent_bits := 8;
     min_exponent := -126;
     max_exponent := 127;
     exponent_bias := -127;
     decimal_digits := 9 |}.

Definition ieee754_binary64 : FormatDescriptor :=
  {| significand_bits := 52;
     exponent_bits := 11;
     min_exponent := -1022;
     max_exponent := 1023;
     exponent_bias := -1023;
     decimal_digits := 17 |}.

(** Declared by the header only inside the 80-bit branch of the
    [long double] selection. *)
Definition ieee754_binary80 : FormatDescriptor :=
  {| significand_bits := 63;
     exponent_bits := 15;
     min_exponent := -16382;
     max_exponent := 16383;
     exponent_bias := 16383;
     decimal_digits := 18 |}.

Definition ieee754_binary128 : FormatDescriptor :=
  {| significand_bits := 112;
     exponent_bits := 15;
     min_exponent := -16382;
     max_exponent := 16383;
     exponent_bias := 16383;
     decimal_digits := 33 |}.

Inductive BinaryKind : Type := binary32 | binary64 | binary80 | binary128.

(** Modelled from the spec: the registry's [lookup(kind)] contract; the
    header has the four structs and no function over them. *)
Definition lookup (k : BinaryKind) : FormatDescriptor :=
  match k with
  | binary32 => ieee754_binary32
  | binary64 => ieee754_binary64
  | binary80 => ieee754_binary80
  | binary128 => ieee754_binary128
  end.

Definition all_kinds : list BinaryKind := [binary32; binary64; binary80; binary128].

(** ** Bit-field overlays *)

(** The two underlying types the header's bit-fields are declared with. *)
Inductive uint_type : Type := uint32_t | uint64_t.

Definition type_bits (t : uint_type) : Z :=
  match t with uint32_t => 32 | uint64_t => 64 end.

(** The member names of the overlays. *)
Inductive member : Type := mantissa_l | mantissa_h | exponent | sign | pad.

Definition member_eqb (a b : member) : bool :=
  match a, b with
  | mantissa_l, mantissa_l | mantissa_h, mantissa_h
  | exponent, exponent | sign, sign | pad, pad => true
  | _, _ => false
  end.

(** One declaration [type name : width;]. *)
Record bit_field : Type := BitField {
  bf_type : uint_type;
  bf_name : member;
  bf_width : Z
}.

(** A struct of bit-fields, in declaration order. *)
Definition overlay : Type := list bit_field.

(** The geometry the [#if]/[#elif] chain on [LDBL_MANT_DIG] and
    [LDBL_MAX_EXP] ends in, one constructor per branch. *)
Inductive LayoutKind : Type := Extended80 | Quad128 | Aliased64 | Unsupported.

Definition long_double_layout (LDBL_MANT_DIG LDBL_MAX_EXP : Z) : LayoutKind :=
  if (LDBL_MANT_DIG =? 64) && (LDBL_MAX_EXP =? 16384) then Extended80
  else if (LDBL_MANT_DIG =? 113) && (LDBL_MAX_EXP =? 16384) then Quad128
  else if (LDBL_MANT_DIG =? 53) && (LDBL_MAX_EXP =? 1024) then Aliased64
  else Unsupported.

(** [IEEEl2bits] of the 80-bit branch.  [little] is the value of
    [BOOST_CHARCONV_ENDIAN_LITTLE_BYTE], which comes from [config.hpp]. *)
Definition IEEEl2bits_80 (little : bool) : overlay :=
  if little then
    [ BitField uint32_t mantissa_l 32;
      BitField uint32_t mantissa_h 32;
      BitField uint32_t exponent 15;
      BitField uint32_t sign 1;
      BitField uint32_t pad 32 ]
  else
    [ BitField uint32_t pad 32;
      BitField uint32_t sign 1;
      BitField uint32_t exponent 15;
      BitField uint32_t mantissa_h 32;
      BitField uint32_t mantissa_l 32 ].

(** [IEEEl2bits] of the 128-bit branch. *)
Definition IEEEl2bits_128 (little : bool) : overlay :=
  if little then
    [ BitField uint64_t mantissa_l 64;
      BitField uint64_t mantissa_h 48;
      BitField uint32_t exponent 15;
      BitField uint32_t sign 1 ]
  else
    [ BitField uint32_t sign 1;
      BitField uint32_t exponent 15;
      BitField uint64_t mantissa_h 48;
      BitField uint64_t mantissa_l 64 ].

(** [IEEEl2bits] of the 64-bit branch. *)
Definition IEEEl2bits_64 (little : bool) : overlay :=
  if little then
    [ BitField uint32_t mantissa_l 32;
      BitField uint32_t mantissa_h 20;
      BitField uint32_t exponent 11;
      BitField uint32_t sign 1 ]
  else
    [ BitField uint32_t sign 1;
      BitField uint32_t exponent 11;
      BitField uint32_t mantissa_h 20;
      BitField uint32_t mantissa_l 32 ].

(** What the selected branch declares: the struct [IEEEl2bits], when one
    is declared at all. *)
Definition IEEEl2bits (k : LayoutKind) (little : bool) : option overlay :=
  match k with
  | Extended80 => Some (IEEEl2bits_80 little)
  | Quad128 => Some (IEEEl2bits_128 little)
  | Aliased64 => Some (IEEEl2bits_64 little)
  | Unsupported => None
  end.

(** The macro [BOOST_CHARCONV_LDBL_BITS], when the branch defines it. *)
Definition BOOST_CHARCONV_LDBL_BITS (k : LayoutKind) : option Z :=
  match k with
  | Extended80 => Some 80
  | Quad128 => Some 128
  | Aliased64 => Some 64
  | Unsupported => None
  end.

(** Whether the branch defines [BOOST_MATH_UNSUPPORTED_LONG_DOUBLE]. *)
Definition BOOST_MATH_UNSUPPORTED_LONG_DOUBLE (k : LayoutKind) : bool :=
  match k with
  | Unsupported => true
  | _ => false
  end.

(** The overlay declared after the chain, on every platform. *)
Definition IEEEbinary128 (little : bool) : overlay :=
  if little then
    [ BitField uint64_t mantissa_l 64;
      BitField uint64_t mantissa_h 48;
      BitField uint32_t exponent 15;
      BitField uint32_t sign 1 ]
  else
    [ BitField uint32_t sign 1;
      BitField uint32_t exponent 15;
      BitField uint64_t mantissa_h 48;
      BitField uint64_t mantissa_l 64 ].

(** The overlays of the header, by name. *)
Inductive overlay_name : Type := L2bits80 | L2bits128 | L2bits64 | Binary128.

Definition overlay_of (o : overlay_name) (little : bool) : overlay :=
  match o with
  | L2bits80 => IEEEl2bits_80 little
  | L2bits128 => IEEEl2bits_128 little
  | L2bits64 => IEEEl2bits_64 little
  | Binary128 => IEEEbinary128 little
  end.

(** ** Measures of an overlay *)

Definition is_pad (f : bit_field) : bool := member_eqb (bf_name f) pad.

Definition sum_widths (fs : overlay) : Z :=
  fold_right Z.add 0 (map bf_width fs).

(** All bits the struct declares, padding member included. *)
Definition declared_bits (fs : overlay) : Z := sum_widths fs.

(** The bits of the members that carry the value. *)
Definition value_bits (fs : overlay) : Z :=
  sum_widths (filter (fun f => negb (is_pad f)) fs).

Definition pad_bits (fs : overlay) : Z := sum_widths (filter is_pad fs).

(** Width of the member [m], 0 when the struct has no such member. *)
Definition width_of (m : member) (fs : overlay) : Z :=
  sum_widths (filter (fun f => member_eqb (bf_name f) m) fs).

(** Every member fits the type it is declared with. *)
Definition fits_type (f : bit_field) : bool :=
  (0 <? bf_width f) && (bf_width f <=? type_bits (bf_type f)).

(** ** Positions of the members *)

(** A member's place in the storage: offset of its lowest bit and width. *)
Definition field_table : Type := list (member * (Z * Z)).

(** Members laid one after the other from [pos], in declaration order,
    with no gap between them.  This is the table the spec asks for; what a
    compiler allocates is [place_units] below, which differs from it where
    a member would cross a boundary of its declared type. *)
Fixpoint place (pos : Z) (fs : overlay) : field_table :=
  match fs with
  | [] => []
  | f :: rest => (bf_name f, (pos, bf_width f)) :: place (pos + bf_width f) rest
  end.

(** Modelled from the spec: the (shift, mask) table per member, layout and
    endianness, which the header leaves to the compiler's bit-field
    allocation.  The storage is read as one integer in the platform's own
    byte order; members are packed without gaps in declaration order, the
    first declared member at the least significant end under little-endian
    allocation and at the most significant end under big-endian
    allocation.  The members that carry the value sit where a compiler
    puts them under little-endian allocation ([value_members_where_packed]);
    [pad] of the 80-bit overlay does not: a compiler puts it 16 bits
    higher. *)
Definition shifts (little : bool) (fs : overlay) : field_table :=
  if little then place 0 fs
  else map (fun e => let '(m, (off, w)) := e in
                     (m, (declared_bits fs - off - w, w)))
           (place 0 fs).

Fixpoint find_member (m : member) (t : field_table) : option (Z * Z) :=
  match t with
  | [] => None
  | (m', sw) :: rest => if member_eqb m m' then Some sw else find_member m rest
  end.

(** ** Reading and writing bit-fields *)

(** The [width] bits of [raw] from bit [shift] upwards. *)
Definition get_bits (shift width raw : Z) : Z :=
  Z.land (Z.shiftr raw shift) (Z.ones width).

(** [storage] with the [width] bits from bit [shift] upwards replaced by
    the low [width] bits of [v], as an assignment to an unsigned bit-field
    does. *)
Definition set_bits (shift width v storage : Z) : Z :=
  Z.lor (Z.land storage (Z.lnot (Z.shiftl (Z.ones width) shift)))
        (Z.shiftl (Z.land v (Z.ones width)) shift).

Definition bind {A B : Type} (o : option A) (f : A -> option B) : option B :=
  match o with
  | Some a => f a
  | None => None
  end.

Notation "x <- o ;; k" := (bind o (fun x => k))
  (at level 61, o at next level, right associativity).

(** Member access; [None] when the struct declares no such member. *)
Definition read_member (t : field_table) (m : member) (raw : Z) : option Z :=
  sw <- find_member m t ;;
  Some (get_bits (fst sw) (snd sw) raw).

Definition write_member (t : field_table) (m : member) (v storage : Z) : option Z :=
  sw <- find_member m t ;;
  Some (set_bits (fst sw) (snd sw) v storage).

(** The three fields of a floating-point datum. *)
Record Fields : Type := MkFields {
  f_sign : Z;
  f_exponent : Z;
  f_significand : Z
}.

(** Modelled from the spec: [decompose] through an overlay, absent from
    the header.  The members [sign], [exponent], [mantissa_h] and
    [mantissa_l] are read at their positions and the two mantissa words are
    joined into one significand; [pad] is not read. *)
Definition decompose_overlay (little : bool) (fs : overlay) (raw : Z) : option Fields :=
  let t := shifts little fs in
  s <- read_member t sign raw ;;
  e <- read_member t exponent raw ;;
  h <- read_member t mantissa_h raw ;;
  l <- read_member t mantissa_l raw ;;
  lw <- find_member mantissa_l t ;;
  Some (MkFields s e (Z.lor (Z.shiftl h (snd lw)) l)).

(** Modelled from the spec: [compose] through an overlay, absent from the
    header.  The storage starts zero-filled, so [pad] stays zero; each
    member is then assigned, the significand split at the width of
    [mantissa_l]. *)
Definition compose_overlay (little : bool) (fs : overlay) (f : Fields) : option Z :=
  let t := shifts little fs in
  lw <- find_member mantissa_l t ;;
  r1 <- write_member t sign (f_sign f) 0 ;;
  r2 <- write_member t exponent (f_exponent f) r1 ;;
  r3 <- write_member t mantissa_h (Z.shiftr (f_significand f) (snd lw)) r2 ;;
  write_member t mantissa_l (f_significand f) r3.

(** Modelled from the spec: [decompose] for the kinds that have no overlay
    in the header (binary32, binary64); the field boundaries are the
    descriptor's [significand_bits] and [exponent_bits], the sign above
    them. *)
Definition decompose_fixed (d : FormatDescriptor) (raw : Z) : Fields :=
  MkFields (get_bits (significand_bits d + exponent_bits d) 1 raw)
           (get_bits (significand_bits d) (exponent_bits d) raw)
           (get_bits 0 (significand_bits d) raw).

(** Modelled from the spec: [compose] for the kinds that have no overlay
    in the header. *)
Definition compose_fixed (d : FormatDescriptor) (f : Fields) : Z :=
  set_bits 0 (significand_bits d) (f_significand f)
    (set_bits (significand_bits d) (exponent_bits d) (f_exponent f)
       (set_bits (significand_bits d + exponent_bits d) 1 (f_sign f) 0)).

(** Only the 80-bit extended format stores its leading significand bit. *)
Definition explicit_integer_bit (k : BinaryKind) : bool :=
  match k with binary80 => true | _ => false end.

(** Sign, exponent and significand of a kind, with the stored integer bit. *)
Definition kind_bits (k : BinaryKind) : Z :=
  1 + exponent_bits (lookup k) + significand_bits (lookup k)
  + (if explicit_integer_bit k then 1 else 0).

(** Modelled from the spec: [decompose(kind, raw_bits)], absent from the
    header.  binary80 goes through the 80-bit [IEEEl2bits], binary128
    through [IEEEbinary128], binary32 and binary64 through their
    descriptors. *)
Definition decompose (k : BinaryKind) (little : bool) (raw : Z) : option Fields :=
  match k with
  | binary32 => Some (decompose_fixed ieee754_binary32 raw)
  | binary64 => Some (decompose_fixed ieee754_binary64 raw)
  | binary80 => decompose_overlay little (IEEEl2bits_80 little) raw
  | binary128 => decompose_overlay little (IEEEbinary128 little) raw
  end.

(** Modelled from the spec: [compose(kind, fields)], absent from the
    header. *)
Definition compose (k : BinaryKind) (little : bool) (f : Fields) : option Z :=
  match k with
  | binary32 => Some (compose_fixed ieee754_binary32 f)
  | binary64 => Some (compose_fixed ieee754_binary64 f)
  | binary80 => compose_overlay little (IEEEl2bits_80 little) f
  | binary128 => compose_overlay little (IEEEbinary128 little) f
  end.

(** Modelled from the spec: the number a normal datum of binary32 or
    binary64 denotes.  The leading significand bit is implicit and the
    descriptor's (negative) [exponent_bias] is added to the stored exponent
    field to recover the true exponent. *)
Definition normal_value (d : FormatDescriptor) (f : Fields) : Q :=
  ((if f_sign f =? 0 then 1 else -1)
   * (1 + inject_Z (f_significand f) / inject_Z (2 ^ significand_bits d))
   * Qpower 2 (f_exponent f + exponent_bias d))%Q.

(** ** Members an overlay must declare *)

(** The struct has a member named [m]. *)
Definition declares (m : member) (fs : overlay) : bool :=
  existsb (fun f => member_eqb m (bf_name f)) fs.

(** The members that [decompose_overlay] reads and [compose_overlay]
    assigns. *)
Definition value_members : list member := [sign; exponent; mantissa_h; mantissa_l].

Definition declares_value_members (fs : overlay) : bool :=
  forallb (fun m => declares m fs) value_members.

(** ** Overlays against descriptors *)

(** The members of an overlay have the widths of the descriptor's fields:
    one sign bit, [exponent_bits] of exponent, and the two mantissa words
    together hold [significand_bits] and [integer_bit] more. *)
Definition corresponds (fs : overlay) (d : FormatDescriptor) (integer_bit : Z) : Prop :=
  width_of sign fs = 1
  /\ width_of exponent fs = exponent_bits d
  /\ width_of mantissa_h fs + width_of mantissa_l fs = significand_bits d + integer_bit.

(** The descriptor an overlay of the header is the layout of. *)
Definition descriptor_of (o : overlay_name) : FormatDescriptor :=
  match o with
  | L2bits80 => ieee754_binary80
  | L2bits128 => ieee754_binary128
  | L2bits64 => ieee754_binary64
  | Binary128 => ieee754_binary128
  end.

(** The width of the format an overlay of the header is the layout of. *)
Definition format_bits (o : overlay_name) : Z :=
  match o with
  | L2bits80 => 80
  | L2bits128 => 128
  | L2bits64 => 64
  | Binary128 => 128
  end.

(** ** Boundary patterns *)

(** The boundary patterns of a kind: zero, the infinity, the two ends of
    the NaN range, the sign bit alone, and all bits set. *)
Definition boundary_patterns (k : BinaryKind) : list Z :=
  let m := significand_bits (lookup k) + (if explicit_integer_bit k then 1 else 0) in
  let e := exponent_bits (lookup k) in
  [ 0;
    Z.shiftl (Z.ones e) m;
    Z.shiftl (Z.ones e) m + 1;
    Z.shiftl (Z.ones e) m + Z.ones m;
    Z.shiftl 1 (m + e);
    Z.ones (m + e + 1) ].

(** ** Exponent codes *)

(** The stored exponent codes of the least and the greatest normal
    exponent, when the bias is added to the true exponent. *)
Definition codes_adding (d : FormatDescriptor) : Z * Z :=
  (min_exponent d + exponent_bias d, max_exponent d + exponent_bias d).

(** The same codes when the bias is subtracted from the true exponent. *)
Definition codes_subtracting (d : FormatDescriptor) : Z * Z :=
  (min_exponent d - exponent_bias d, max_exponent d - exponent_bias d).

(** The codes left to normal numbers: all but the least and the greatest. *)
Definition normal_codes (d : FormatDescriptor) : Z * Z :=
  (1, 2 ^ exponent_bits d - 2).

(** ** Descriptors of the [long double] geometries *)

(** The descriptor of the format each branch of the selection is for: the
    80-bit branch declares [ieee754_binary80] itself, the 128-bit branch is
    the quad format, and the 64-bit branch is [double]. *)
Definition layout_descriptor (k : LayoutKind) : option FormatDescriptor :=
  match k with
  | Extended80 => Some ieee754_binary80
  | Quad128 => Some ieee754_binary128
  | Aliased64 => Some ieee754_binary64
  | Unsupported => None
  end.

(** ** Decimal digits of a precision *)

(** [d] is the least number of decimal digits that tells apart all
    numbers of [p] binary digits ([max_digits10]). *)
Definition is_max_digits10 (p d : Z) : Prop :=
  10 ^ (d - 2) < 2 ^ p < 10 ^ (d - 1).

(** [d] is the greatest number of decimal digits that [p] binary digits
    always keep ([digits10]). *)
Definition is_digits10 (p d : Z) : Prop :=
  10 ^ d < 2 ^ (p - 1) < 10 ^ (d + 1).

(** ** Fields within their widths *)

(** The fields are unsigned numbers of the widths of kind [k]. *)
Definition fields_in_range (k : BinaryKind) (f : Fields) : Prop :=
  0 <= f_sign f < 2
  /\ 0 <= f_exponent f < 2 ^ exponent_bits (lookup k)
  /\ 0 <= f_significand f
     < 2 ^ (significand_bits (lookup k) + (if explicit_integer_bit k then 1 else 0)).

(** The fields cut down to the widths of kind [k]. *)
Definition truncate_fields (k : BinaryKind) (f : Fields) : Fields :=
  MkFields (Z.land (f_sign f) (Z.ones 1))
           (Z.land (f_exponent f) (Z.ones (exponent_bits (lookup k))))
           (Z.land (f_significand f)
                   (Z.ones (significand_bits (lookup k)
                            + (if explicit_integer_bit k then 1 else 0)))).

(** ** Allocation by storage units *)

(** The header leaves the allocation of its bit-fields to the compiler.
    GCC and Clang follow the rule of the System V and Itanium ABIs: a
    bit-field starts at the next free bit, unless it would then cross a
    boundary of its declared type, in which case it starts at that
    boundary.  [unit_start pos u w] is where a field of [w] bits with a
    type of [u] bits starts when the next free bit is [pos]. *)
Definition unit_start (pos u w : Z) : Z :=
  if pos mod u + w <=? u then pos else (pos / u + 1) * u.

(** Members allocated by that rule in declaration order, offsets counted
    from the lowest-addressed bit of little-endian storage. *)
Fixpoint place_units (pos : Z) (fs : overlay) : field_table :=
  match fs with
  | [] => []
  | f :: rest =>
      let s := unit_start pos (type_bits (bf_type f)) (bf_width f) in
      (bf_name f, (s, bf_width f)) :: place_units (s + bf_width f) rest
  end.

(** The first bit after the last member. *)
Fixpoint units_end (pos : Z) (fs : overlay) : Z :=
  match fs with
  | [] => pos
  | f :: rest =>
      units_end (unit_start pos (type_bits (bf_type f)) (bf_width f) + bf_width f) rest
  end.

(** The alignment of the struct, that of its widest declared type. *)
Definition alignment_bits (fs : overlay) : Z :=
  fold_right Z.max 8 (map (fun f => type_bits (bf_type f)) fs).

(** The size of the struct: its members, rounded up to the alignment. *)
Definition struct_bits (fs : overlay) : Z :=
  (units_end 0 fs + alignment_bits fs - 1) / alignment_bits fs * alignment_bits fs.

(** * Properties of the constant tables *)

(** C4: the literal constants of the registry are, for binary32,
    binary64, binary80 and binary128 in this order, 9, 17, 18, 33 decimal
    digits, 8, 11, 15, 15 exponent bits and 23, 52, 63, 112 significand
    bits. *)
Theorem registry_literals :
  map (fun k => decimal_digits (lookup k)) all_kinds = [9; 17; 18; 33]
  /\ map (fun k => exponent_bits (lookup k)) all_kinds = [8; 11; 15; 15]
  /\ map (fun k => significand_bits (lookup k)) all_kinds = [23; 52; 63; 112].
Proof. repeat split. Qed.

(** C5: for each of the four descriptors the exponent range spans all
    exponent codes but two: max_exponent - min_exponent + 1 is
    2^exponent_bits - 2. *)
Theorem exponent_range_consistent (k : BinaryKind) :
  max_exponent (lookup k) - min_exponent (lookup k) + 1
  = 2 ^ exponent_bits (lookup k) - 2.
Proof. destruct k; reflexivity. Qed.

(** C3: the two families write the bias with opposite signs.  binary80
    and binary128 have the positive offset 16383, and adding it to the
    true exponent gives the stored codes 1 .. 2^15 - 2; binary32 and
    binary64 have the negative constants -127 and -1023, and it is
    subtracting them that gives the stored codes 1 .. 2^8 - 2 and
    1 .. 2^11 - 2. *)
Theorem bias_sign_conventions :
  exponent_bias ieee754_binary80 = 16383
  /\ exponent_bias ieee754_binary128 = 16383
  /\ exponent_bias ieee754_binary32 = -127
  /\ exponent_bias ieee754_binary64 = -1023
  /\ codes_adding ieee754_binary80 = normal_codes ieee754_binary80
  /\ codes_adding ieee754_binary128 = normal_codes ieee754_binary128
  /\ codes_subtracting ieee754_binary32 = normal_codes ieee754_binary32
  /\ codes_subtracting ieee754_binary64 = normal_codes ieee754_binary64.
Proof. repeat split. Qed.

(** With the sign of the other family the codes fall outside the field. *)
Lemma bias_conventions_not_interchangeable :
  codes_adding ieee754_binary32 = (-253, 0)
  /\ codes_adding ieee754_binary64 = (-2045, 0)
  /\ codes_subtracting ieee754_binary80 = (-32765, 0)
  /\ codes_subtracting ieee754_binary128 = (-32765, 0).
Proof. repeat split. Qed.

(** * The selection of the [long double] overlay *)

Lemma andb_eqb_iff (a b x y : Z) :
  (a =? x) && (b =? y) = true <-> a = x /\ b = y.
Proof. rewrite andb_true_iff, !Z.eqb_eq. reflexivity. Qed.

Lemma long_double_layout_cases (m e : Z) :
  (m = 64 /\ e = 16384 /\ long_double_layout m e = Extended80)
  \/ (m = 113 /\ e = 16384 /\ long_double_layout m e = Quad128)
  \/ (m = 53 /\ e = 1024 /\ long_double_layout m e = Aliased64)
  \/ (~ (m = 64 /\ e = 16384) /\ ~ (m = 113 /\ e = 16384)
      /\ ~ (m = 53 /\ e = 1024) /\ long_double_layout m e = Unsupported).
Proof.
  unfold long_double_layout.
  destruct ((m =? 64) && (e =? 16384)) eqn:E80.
  { apply andb_eqb_iff in E80. left. tauto. }
  destruct ((m =? 113) && (e =? 16384)) eqn:E128.
  { apply andb_eqb_iff in E128. right; left. tauto. }
  destruct ((m =? 53) && (e =? 1024)) eqn:E64.
  { apply andb_eqb_iff in E64. right; right; left. tauto. }
  right; right; right.
  rewrite <- (andb_eqb_iff m e 64 16384), <- (andb_eqb_iff m e 113 16384),
    <- (andb_eqb_iff m e 53 1024), E80, E128, E64.
  repeat split; discriminate.
Qed.

(** C6: the overlay of [long double] is chosen by the preprocessor from
    [LDBL_MANT_DIG] and [LDBL_MAX_EXP] alone: 64 digits with bound 16384
    give the 80-bit layout, 113 with 16384 the 128-bit one, 53 with 1024
    the 64-bit one, and every other pair gives no layout. *)
Theorem layout_selection (m e : Z) :
  (long_double_layout m e = Extended80 <-> m = 64 /\ e = 16384)
  /\ (long_double_layout m e = Quad128 <-> m = 113 /\ e = 16384)
  /\ (long_double_layout m e = Aliased64 <-> m = 53 /\ e = 1024)
  /\ (long_double_layout m e = Unsupported <->
      ~ (m = 64 /\ e = 16384) /\ ~ (m = 113 /\ e = 16384)
      /\ ~ (m = 53 /\ e = 1024)).
Proof.
  destruct (long_double_layout_cases m e)
    as [(-> & -> & H) | [(-> & -> & H) | [(-> & -> & H) | (N1 & N2 & N3 & H)]]];
    rewrite H; repeat split; intros; try discriminate; try lia; try tauto.
Qed.

(** What each branch defines besides the struct. *)
Lemma selected_branch_macros (m e : Z) :
  let k := long_double_layout m e in
  (BOOST_MATH_UNSUPPORTED_LONG_DOUBLE k = true <-> k = Unsupported)
  /\ (BOOST_CHARCONV_LDBL_BITS k = None <-> k = Unsupported)
  /\ (forall little, IEEEl2bits k little = None <-> k = Unsupported).
Proof.
  cbv zeta. destruct (long_double_layout m e); cbn;
    repeat split; intros; try discriminate; reflexivity.
Qed.

(** * The structure of the overlays *)

(** Every member of every overlay fits the integer type it is declared
    with. *)
Lemma members_fit_their_type (o : overlay_name) (little : bool) :
  forallb fits_type (overlay_of o little) = true.
Proof. destruct o, little; reflexivity. Qed.

(** The declared widths of the 80-bit overlay, padding member included,
    sum to 112 under either endianness, and not to the 80 bits of the
    format. *)
Lemma extended80_declares_112_bits :
  declared_bits (IEEEl2bits_80 true) = 112
  /\ declared_bits (IEEEl2bits_80 false) = 112
  /\ kind_bits binary80 = 80
  /\ BOOST_CHARCONV_LDBL_BITS Extended80 = Some 80
  /\ (declared_bits (IEEEl2bits_80 true) =? kind_bits binary80) = false
  /\ (declared_bits (IEEEl2bits_80 false) =? kind_bits binary80) = false.
Proof. repeat split. Qed.

(** C2, amended: the declared widths sum to the format's width, 64 and
    128, for the 64-bit and 128-bit [IEEEl2bits] and for [IEEEbinary128];
    in the 80-bit [IEEEl2bits] it is the members other than [pad] that sum
    to 80, and [pad] adds 32 bits, 112 declared bits in all.  In each
    overlay the sign has 1 bit, the exponent [exponent_bits], and the two
    mantissa words [significand_bits], plus the explicit integer bit in the
    80-bit overlay only; and 1 + exponent_bits + significand_bits, plus 1
    for binary80, is 32, 64, 80 and 128 for the four descriptors. *)
Theorem field_widths_sum (little : bool) :
  (forall o, value_bits (overlay_of o little) = format_bits o)
  /\ (forall o, declared_bits (overlay_of o little)
                = format_bits o + pad_bits (overlay_of o little))
  /\ pad_bits (IEEEl2bits_80 little) = 32
  /\ pad_bits (IEEEl2bits_128 little) = 0
  /\ pad_bits (IEEEl2bits_64 little) = 0
  /\ pad_bits (IEEEbinary128 little) = 0
  /\ (forall o, corresponds (overlay_of o little) (descriptor_of o)
                            (match o with L2bits80 => 1 | _ => 0 end))
  /\ map kind_bits all_kinds = [32; 64; 80; 128].
Proof.
  assert (W : forall o, corresponds (overlay_of o little) (descriptor_of o)
                          (match o with L2bits80 => 1 | _ => 0 end))
    by (intros o; destruct o, little; repeat split).
  repeat apply conj; try exact W; try (intros o; destruct o);
    destruct little; reflexivity.
Qed.

(** The width the branch announces in [BOOST_CHARCONV_LDBL_BITS] is the
    width of the members that carry the value. *)
Lemma ldbl_bits_are_value_bits (k : LayoutKind) (little : bool) :
  option_map value_bits (IEEEl2bits k little) = BOOST_CHARCONV_LDBL_BITS k.
Proof. destruct k, little; reflexivity. Qed.

(** C8: in every overlay the little-endian declaration lists the low
    mantissa word first, then the high mantissa word, the exponent and the
    sign (and after them the padding, which only the 80-bit overlay has);
    the big-endian declaration is the same list reversed. *)
Theorem field_order (o : overlay_name) :
  map bf_name (overlay_of o true)
  = [mantissa_l; mantissa_h; exponent; sign]
    ++ match o with L2bits80 => [pad] | _ => [] end
  /\ overlay_of o false = rev (overlay_of o true).
Proof. destruct o; split; reflexivity. Qed.

(** Under the little-endian declaration the members sit at increasing bit
    offsets in that order, the low mantissa word at offset 0. *)
Lemma little_endian_offsets (o : overlay_name) :
  exists wl wh we,
    firstn 4 (shifts true (overlay_of o true))
    = [ (mantissa_l, (0, wl)); (mantissa_h, (wl, wh));
        (exponent, (wl + wh, we)); (sign, (wl + wh + we, 1)) ].
Proof.
  destruct o; [exists 32, 32, 15 | exists 64, 48, 15
              | exists 32, 20, 11 | exists 64, 48, 15]; reflexivity.
Qed.

(** C10: when [long double] is the 128-bit format, [IEEEl2bits] and
    [IEEEbinary128] declare the same members with the same types, order
    and widths (64, 48, 15 and 1 bits, mirrored when big-endian), so that
    whatever is computed through one overlay is computed through the
    other. *)
Theorem quad_overlays_agree (little : bool) :
  IEEEl2bits (long_double_layout 113 16384) little = Some (IEEEbinary128 little)
  /\ IEEEbinary128 true
     = [ BitField uint64_t mantissa_l 64; BitField uint64_t mantissa_h 48;
         BitField uint32_t exponent 15; BitField uint32_t sign 1 ]
  /\ IEEEbinary128 false = rev (IEEEbinary128 true)
  /\ (forall (A : Type) (access : overlay -> A),
        option_map access (IEEEl2bits (long_double_layout 113 16384) little)
        = Some (access (IEEEbinary128 little))).
Proof.
  assert (E : IEEEl2bits (long_double_layout 113 16384) little
              = Some (IEEEbinary128 little))
    by (destruct little; reflexivity).
  rewrite E. repeat split.
Qed.

(** In particular the modelled reads and writes agree on every datum. *)
Lemma quad_overlays_decompose_alike (little : bool) (raw : Z) (f : Fields) :
  bind (IEEEl2bits (long_double_layout 113 16384) little)
       (fun fs => decompose_overlay little fs raw)
  = decompose_overlay little (IEEEbinary128 little) raw
  /\ bind (IEEEl2bits (long_double_layout 113 16384) little)
          (fun fs => compose_overlay little fs f)
     = compose_overlay little (IEEEbinary128 little) f.
Proof. destruct little; split; reflexivity. Qed.

(** * Bits of a read and of a write *)

Lemma testbit_shiftl_any (a s n : Z) :
  0 <= s -> Z.testbit (Z.shiftl a s) n = Z.testbit a (n - s).
Proof.
  intros Hs. destruct (Z.lt_ge_cases n 0) as [Hn | Hn].
  - rewrite !Z.testbit_neg_r by lia. reflexivity.
  - apply Z.shiftl_spec. exact Hn.
Qed.

Lemma testbit_get_bits (s w x n : Z) :
  0 <= s -> 0 <= w ->
  Z.testbit (get_bits s w x) n = (0 <=? n) && (n <? w) && Z.testbit x (n + s).
Proof.
  intros Hs Hw. unfold get_bits.
  rewrite Z.land_spec, Z.testbit_ones by exact Hw.
  destruct (Z.leb_spec 0 n) as [Hn | Hn].
  - rewrite Z.shiftr_spec by exact Hn. apply andb_comm.
  - rewrite (Z.testbit_neg_r _ n) by exact Hn. reflexivity.
Qed.

Lemma testbit_set_bits (s w v st n : Z) :
  0 <= s -> 0 <= w ->
  Z.testbit (set_bits s w v st) n
  = if (s <=? n) && (n <? s + w) then Z.testbit v (n - s) else Z.testbit st n.
Proof.
  intros Hs Hw. unfold set_bits.
  rewrite Z.lor_spec, Z.land_spec, !testbit_shiftl_any by exact Hs.
  rewrite Z.land_spec, Z.testbit_ones by exact Hw.
  destruct (Z.leb_spec s n) as [Hsn | Hsn]; cbn [andb].
  - rewrite Z.lnot_spec by lia.
    rewrite testbit_shiftl_any, Z.testbit_ones by assumption.
    replace (0 <=? n - s) with true by (symmetry; apply Z.leb_le; lia).
    replace (n - s <? w) with (n <? s + w)
      by (destruct (Z.ltb_spec n (s + w)), (Z.ltb_spec (n - s) w); lia || reflexivity).
    cbn [andb]. destruct (n <? s + w); cbn [negb andb orb].
    + rewrite andb_false_r, andb_true_r. reflexivity.
    + rewrite andb_true_r, andb_false_r, orb_false_r. reflexivity.
  - replace (0 <=? n - s) with false by (symmetry; apply Z.leb_gt; lia).
    rewrite andb_false_r, orb_false_r.
    destruct (Z.lt_ge_cases n 0) as [Hn | Hn].
    + rewrite !Z.testbit_neg_r by lia. reflexivity.
    + rewrite Z.lnot_spec, testbit_shiftl_any by assumption.
      rewrite (Z.testbit_neg_r _ (n - s)) by lia.
      apply andb_true_r.
Qed.

Lemma testbit_shiftr_any (a s n : Z) :
  0 <= s -> Z.testbit (Z.shiftr a s) n = (0 <=? n) && Z.testbit a (n + s).
Proof.
  intros Hs. destruct (Z.leb_spec 0 n) as [Hn | Hn]; cbn [andb].
  - apply Z.shiftr_spec. exact Hn.
  - apply Z.testbit_neg_r. exact Hn.
Qed.

Ltac bits_rewrite :=
  repeat first
    [ rewrite testbit_set_bits by lia
    | rewrite testbit_get_bits by lia
    | rewrite testbit_shiftl_any by lia
    | rewrite testbit_shiftr_any by lia
    | rewrite Z.lor_spec
    | rewrite Z.land_spec
    | rewrite Z.testbit_ones by lia
    | rewrite Z.testbit_0_l ].

Ltac decide_comparisons :=
  repeat match goal with
    | |- context [?a <=? ?b] =>
        first [ replace (a <=? b) with true by (symmetry; apply Z.leb_le; lia)
              | replace (a <=? b) with false by (symmetry; apply Z.leb_gt; lia) ]
    | |- context [?a <? ?b] =>
        first [ replace (a <? b) with true by (symmetry; apply Z.ltb_lt; lia)
              | replace (a <? b) with false by (symmetry; apply Z.ltb_ge; lia) ]
    end;
  cbn [andb orb negb].

Ltac bits_close :=
  decide_comparisons;
  rewrite ?orb_false_r, ?andb_false_r, ?andb_true_r;
  first [ reflexivity | f_equal; lia ].

Lemma overlay_roundtrip_bits (lw hw ew sw raw : Z) :
  0 <= lw -> 0 <= hw -> 0 <= ew -> 0 <= sw ->
  let sig := Z.lor (Z.shiftl (get_bits lw hw raw) lw) (get_bits 0 lw raw) in
  set_bits 0 lw sig
    (set_bits lw hw (Z.shiftr sig lw)
       (set_bits (lw + hw) ew (get_bits (lw + hw) ew raw)
          (set_bits (lw + hw + ew) sw (get_bits (lw + hw + ew) sw raw) 0)))
  = Z.land raw (Z.ones (lw + hw + ew + sw)).
Proof.
  intros Hl Hh He Hs sig. subst sig.
  apply Z.bits_inj'. intros n Hn.
  bits_rewrite.
  destruct (Z.lt_ge_cases n lw); [bits_close|].
  destruct (Z.lt_ge_cases n (lw + hw)); [bits_close|].
  destruct (Z.lt_ge_cases n (lw + hw + ew)); [bits_close|].
  destruct (Z.lt_ge_cases n (lw + hw + ew + sw)); bits_close.
Qed.

Lemma fixed_roundtrip_bits (mw ew sw raw : Z) :
  0 <= mw -> 0 <= ew -> 0 <= sw ->
  set_bits 0 mw (get_bits 0 mw raw)
    (set_bits mw ew (get_bits mw ew raw)
       (set_bits (mw + ew) sw (get_bits (mw + ew) sw raw) 0))
  = Z.land raw (Z.ones (mw + ew + sw)).
Proof.
  intros Hm He Hs.
  apply Z.bits_inj'. intros n Hn.
  bits_rewrite.
  destruct (Z.lt_ge_cases n mw); [bits_close|].
  destruct (Z.lt_ge_cases n (mw + ew)); [bits_close|].
  destruct (Z.lt_ge_cases n (mw + ew + sw)); bits_close.
Qed.

(** * Looking members up *)

Lemma find_member_place (m : member) (fs : overlay) (p : Z) :
  find_member m (place p fs) = None <-> declares m fs = false.
Proof.
  revert p. induction fs as [| f rest IH]; intros p; cbn.
  - tauto.
  - destruct (member_eqb m (bf_name f)); cbn.
    + split; discriminate.
    + apply IH.
Qed.

Lemma find_member_map (g : Z * Z -> Z * Z) (m : member) (t : field_table) :
  find_member m (map (fun e => (fst e, g (snd e))) t)
  = option_map g (find_member m t).
Proof.
  induction t as [| [m' sw] rest IH]; cbn.
  - reflexivity.
  - destruct (member_eqb m m'); [reflexivity | exact IH].
Qed.

Lemma shifts_big_endian (fs : overlay) :
  shifts false fs
  = map (fun e => (fst e, (declared_bits fs - fst (snd e) - snd (snd e), snd (snd e))))
        (place 0 fs).
Proof.
  unfold shifts. apply map_ext. intros [m [off w]]. reflexivity.
Qed.

Lemma find_member_shifts (little : bool) (m : member) (fs : overlay) :
  find_member m (shifts little fs) = None <-> declares m fs = false.
Proof.
  destruct little.
  - apply find_member_place.
  - rewrite shifts_big_endian.
    rewrite (find_member_map
               (fun sw => (declared_bits fs - fst sw - snd sw, snd sw))).
    rewrite <- (find_member_place m fs 0).
    destruct (find_member m (place 0 fs)); cbn; split; congruence.
Qed.

Lemma declared_member_found (little : bool) (m : member) (fs : overlay) :
  declares m fs = true -> exists sw, find_member m (shifts little fs) = Some sw.
Proof.
  intros D. destruct (find_member m (shifts little fs)) as [sw |] eqn:E.
  - exists sw. reflexivity.
  - apply find_member_shifts in E. congruence.
Qed.

(** * Closed forms *)

Lemma decompose_overlay_found (little : bool) (fs : overlay) (raw : Z)
      (s e h l : Z * Z) :
  find_member sign (shifts little fs) = Some s ->
  find_member exponent (shifts little fs) = Some e ->
  find_member mantissa_h (shifts little fs) = Some h ->
  find_member mantissa_l (shifts little fs) = Some l ->
  decompose_overlay little fs raw
  = Some (MkFields (get_bits (fst s) (snd s) raw)
                   (get_bits (fst e) (snd e) raw)
                   (Z.lor (Z.shiftl (get_bits (fst h) (snd h) raw) (snd l))
                          (get_bits (fst l) (snd l) raw))).
Proof.
  intros Hs He Hh Hl. unfold decompose_overlay, read_member.
  rewrite Hs, He, Hh, Hl. reflexivity.
Qed.

Lemma compose_overlay_found (little : bool) (fs : overlay) (f : Fields)
      (s e h l : Z * Z) :
  find_member sign (shifts little fs) = Some s ->
  find_member exponent (shifts little fs) = Some e ->
  find_member mantissa_h (shifts little fs) = Some h ->
  find_member mantissa_l (shifts little fs) = Some l ->
  compose_overlay little fs f
  = Some (set_bits (fst l) (snd l) (f_significand f)
            (set_bits (fst h) (snd h) (Z.shiftr (f_significand f) (snd l))
               (set_bits (fst e) (snd e) (f_exponent f)
                  (set_bits (fst s) (snd s) (f_sign f) 0)))).
Proof.
  intros Hs He Hh Hl. unfold compose_overlay, write_member.
  rewrite Hs, He, Hh, Hl. reflexivity.
Qed.

Lemma declares_value_members_inv (fs : overlay) :
  declares_value_members fs = true ->
  declares sign fs = true /\ declares exponent fs = true
  /\ declares mantissa_h fs = true /\ declares mantissa_l fs = true.
Proof.
  unfold declares_value_members, value_members. cbn [forallb].
  rewrite !andb_true_iff. tauto.
Qed.

Lemma decompose_overlay_total (little : bool) (fs : overlay) (raw : Z) :
  declares_value_members fs = true ->
  exists f, decompose_overlay little fs raw = Some f.
Proof.
  intros D. apply declares_value_members_inv in D.
  destruct D as (Ds & De & Dh & Dl).
  destruct (declared_member_found little _ _ Ds) as [s Hs].
  destruct (declared_member_found little _ _ De) as [e He].
  destruct (declared_member_found little _ _ Dh) as [h Hh].
  destruct (declared_member_found little _ _ Dl) as [l Hl].
  eexists. apply (decompose_overlay_found little fs raw s e h l); assumption.
Qed.

Lemma compose_overlay_total (little : bool) (fs : overlay) (f : Fields) :
  declares_value_members fs = true ->
  exists raw, compose_overlay little fs f = Some raw.
Proof.
  intros D. apply declares_value_members_inv in D.
  destruct D as (Ds & De & Dh & Dl).
  destruct (declared_member_found little _ _ Ds) as [s Hs].
  destruct (declared_member_found little _ _ De) as [e He].
  destruct (declared_member_found little _ _ Dh) as [h Hh].
  destruct (declared_member_found little _ _ Dl) as [l Hl].
  eexists. apply (compose_overlay_found little fs f s e h l); assumption.
Qed.

(** A struct without one of the four members cannot be decomposed: the
    failure is a property of the declaration, never of the datum. *)
Lemma decompose_overlay_undeclared (little : bool) (fs : overlay) (raw : Z) :
  declares_value_members fs = false -> decompose_overlay little fs raw = None.
Proof.
  unfold declares_value_members, value_members. cbn [forallb].
  rewrite andb_true_r. intros D.
  unfold decompose_overlay, read_member.
  destruct (find_member sign (shifts little fs)) eqn:Es; [| reflexivity].
  destruct (find_member exponent (shifts little fs)) eqn:Ee; [| reflexivity].
  destruct (find_member mantissa_h (shifts little fs)) eqn:Eh; [| reflexivity].
  destruct (find_member mantissa_l (shifts little fs)) eqn:El; [| reflexivity].
  exfalso.
  destruct (declares sign fs) eqn:Ds;
    [| apply (find_member_shifts little) in Ds; congruence].
  destruct (declares exponent fs) eqn:De;
    [| apply (find_member_shifts little) in De; congruence].
  destruct (declares mantissa_h fs) eqn:Dh;
    [| apply (find_member_shifts little) in Dh; congruence].
  destruct (declares mantissa_l fs) eqn:Dl;
    [| apply (find_member_shifts little) in Dl; congruence].
  discriminate D.
Qed.

Lemma header_overlays_declare_value_members (o : overlay_name) (little : bool) :
  declares_value_members (overlay_of o little) = true.
Proof. destruct o, little; reflexivity. Qed.

(** * Round trip *)

Lemma land_ones_small (n raw : Z) :
  0 <= n -> 0 <= raw < 2 ^ n -> Z.land raw (Z.ones n) = raw.
Proof.
  intros Hn Hr. rewrite Z.land_ones by exact Hn. apply Z.mod_small. exact Hr.
Qed.

Lemma overlay_roundtrip (little : bool) (fs : overlay) (lw hw ew sw raw : Z) :
  0 <= lw -> 0 <= hw -> 0 <= ew -> 0 <= sw ->
  find_member mantissa_l (shifts little fs) = Some (0, lw) ->
  find_member mantissa_h (shifts little fs) = Some (lw, hw) ->
  find_member exponent (shifts little fs) = Some (lw + hw, ew) ->
  find_member sign (shifts little fs) = Some (lw + hw + ew, sw) ->
  bind (decompose_overlay little fs raw) (compose_overlay little fs)
  = Some (Z.land raw (Z.ones (lw + hw + ew + sw))).
Proof.
  intros Hl Hh He Hs Fl Fh Fe Fs.
  rewrite (decompose_overlay_found little fs raw _ _ _ _ Fs Fe Fh Fl).
  cbn [bind].
  rewrite (compose_overlay_found little fs _ _ _ _ _ Fs Fe Fh Fl).
  cbn [fst snd f_sign f_exponent f_significand].
  f_equal. apply overlay_roundtrip_bits; assumption.
Qed.

Lemma header_overlay_roundtrip (o : overlay_name) (little : bool) (raw : Z) :
  bind (decompose_overlay little (overlay_of o little) raw)
       (compose_overlay little (overlay_of o little))
  = Some (Z.land raw (Z.ones (format_bits o))).
Proof.
  destruct o, little;
    [ apply (overlay_roundtrip _ _ 32 32 15 1) | apply (overlay_roundtrip _ _ 32 32 15 1)
    | apply (overlay_roundtrip _ _ 64 48 15 1) | apply (overlay_roundtrip _ _ 64 48 15 1)
    | apply (overlay_roundtrip _ _ 32 20 11 1) | apply (overlay_roundtrip _ _ 32 20 11 1)
    | apply (overlay_roundtrip _ _ 64 48 15 1) | apply (overlay_roundtrip _ _ 64 48 15 1) ];
    first [ lia | reflexivity ].
Qed.

Lemma fixed_roundtrip (d : FormatDescriptor) (raw : Z) :
  0 <= significand_bits d -> 0 <= exponent_bits d ->
  compose_fixed d (decompose_fixed d raw)
  = Z.land raw (Z.ones (significand_bits d + exponent_bits d + 1)).
Proof.
  intros Hm He. unfold compose_fixed, decompose_fixed.
  cbn [f_sign f_exponent f_significand].
  apply fixed_roundtrip_bits; lia.
Qed.

Lemma roundtrip_any (k : BinaryKind) (little : bool) (raw : Z) :
  bind (decompose k little raw) (compose k little)
  = Some (Z.land raw (Z.ones (kind_bits k))).
Proof.
  destruct k; cbn [decompose compose bind].
  - rewrite fixed_roundtrip by (cbn; lia). reflexivity.
  - rewrite fixed_roundtrip by (cbn; lia). reflexivity.
  - apply (header_overlay_roundtrip L2bits80).
  - apply (header_overlay_roundtrip Binary128).
Qed.

(** C1: for each of the four kinds and under both endiannesses,
    decomposing a raw pattern of the kind's width (32, 64, 80 or 128 bits)
    and composing the fields again gives back the very same pattern,
    whatever it encodes: zero, an infinity, a NaN, the sign bit alone, or
    an 80-bit pattern whose integer bit is 0. *)
Theorem decompose_compose_roundtrip (k : BinaryKind) (little : bool) (raw : Z) :
  0 <= raw < 2 ^ kind_bits k ->
  bind (decompose k little raw) (compose k little) = Some raw.
Proof.
  intros Hr. rewrite roundtrip_any. f_equal.
  apply land_ones_small; [destruct k; cbv; discriminate | exact Hr].
Qed.

(** The round trip at an 80-bit pattern with exponent field 1 and integer
    bit 0. *)
Lemma decompose_compose_roundtrip_unnormal :
  0 <= 2 ^ 64 < 2 ^ kind_bits binary80
  /\ bind (decompose binary80 true (2 ^ 64)) (compose binary80 true)
     = Some (2 ^ 64).
Proof.
  assert (H : 0 <= 2 ^ 64 < 2 ^ kind_bits binary80) by (vm_compute; split; [discriminate | reflexivity]).
  split; [exact H | exact (decompose_compose_roundtrip binary80 true (2 ^ 64) H)].
Defined.

(** Every boundary pattern survives the round trip. *)
Lemma boundary_patterns_roundtrip (k : BinaryKind) (little : bool) :
  map (fun raw => bind (decompose k little raw) (compose k little))
      (boundary_patterns k)
  = map Some (boundary_patterns k).
Proof. destruct k, little; vm_compute; reflexivity. Qed.

(** Bits above the format's width are not kept: the 80-bit overlay reads
    nothing from [pad] and writes zeros there. *)
Lemma extended80_padding_cleared (little : bool) :
  bind (decompose binary80 little (2 ^ 80 + 2 ^ 111 + 5)) (compose binary80 little)
  = Some 5.
Proof. destruct little; vm_compute; reflexivity. Qed.

(** The 64-bit [IEEEl2bits] reads a binary64 datum as the descriptor of
    binary64 cuts it. *)
Lemma aliased64_is_binary64 (little : bool) (raw : Z) :
  decompose_overlay little (IEEEl2bits_64 little) raw
  = Some (MkFields (f_sign (decompose_fixed ieee754_binary64 raw))
                   (f_exponent (decompose_fixed ieee754_binary64 raw))
                   (Z.lor (Z.shiftl (get_bits 32 20 raw) 32) (get_bits 0 32 raw))).
Proof.
  destruct little;
    apply (decompose_overlay_found _ _ raw (63, 1) (52, 11) (32, 20) (0, 32));
    reflexivity.
Qed.

Lemma aliased64_significand (raw : Z) :
  Z.lor (Z.shiftl (get_bits 32 20 raw) 32) (get_bits 0 32 raw)
  = f_significand (decompose_fixed ieee754_binary64 raw).
Proof.
  unfold decompose_fixed. cbn [f_significand significand_bits ieee754_binary64].
  apply Z.bits_inj'. intros n Hn. bits_rewrite.
  destruct (Z.lt_ge_cases n 32); [bits_close|].
  destruct (Z.lt_ge_cases n 52); bits_close.
Qed.

(** * Two data *)

(** C9: the binary64 pattern of 1.0 decomposes into sign 0, exponent
    field 1023 and significand 0, and the binary32 pattern of -2.0 into
    sign 1, exponent field 128 and significand 0; with the descriptors'
    biases these fields denote 1 and -2, the true exponents being 0 and
    1. *)
Theorem decompose_scenarios (little : bool) :
  decompose binary64 little 0x3FF0000000000000 = Some (MkFields 0 1023 0)
  /\ decompose binary32 little 0xC0000000 = Some (MkFields 1 128 0)
  /\ 1023 + exponent_bias ieee754_binary64 = 0
  /\ 128 + exponent_bias ieee754_binary32 = 1
  /\ (normal_value ieee754_binary64 (MkFields 0 1023 0) == 1)%Q
  /\ (normal_value ieee754_binary32 (MkFields 1 128 0) == -2)%Q.
Proof. repeat split. Qed.

(** * Ranges of the fields *)

Lemma get_bits_range (s w raw : Z) :
  0 <= w -> 0 <= get_bits s w raw < 2 ^ w.
Proof.
  intros Hw. unfold get_bits. rewrite Z.land_ones by exact Hw.
  apply Z.mod_pos_bound. apply Z.pow_pos_nonneg; lia.
Qed.

Lemma joined_words_range (lw hw raw : Z) :
  0 <= lw -> 0 <= hw ->
  0 <= Z.lor (Z.shiftl (get_bits lw hw raw) lw) (get_bits 0 lw raw) < 2 ^ (lw + hw).
Proof.
  intros Hl Hh.
  set (x := Z.lor _ _).
  assert (E : Z.land x (Z.ones (lw + hw)) = x).
  { subst x. apply Z.bits_inj'. intros n Hn. bits_rewrite.
    destruct (Z.lt_ge_cases n lw); [bits_close|].
    destruct (Z.lt_ge_cases n (lw + hw)); bits_close. }
  rewrite <- E, Z.land_ones by lia.
  apply Z.mod_pos_bound. apply Z.pow_pos_nonneg; lia.
Qed.

(** X13: the fields [decompose] returns are unsigned numbers of the widths the
    descriptor gives: one bit of sign, [exponent_bits] of exponent and
    [significand_bits] of significand, one more with the explicit integer
    bit. *)
Lemma decompose_fields_in_range (k : BinaryKind) (little : bool) (raw : Z) :
  exists f,
    decompose k little raw = Some f
    /\ 0 <= f_sign f < 2
    /\ 0 <= f_exponent f < 2 ^ exponent_bits (lookup k)
    /\ 0 <= f_significand f
       < 2 ^ (significand_bits (lookup k) + (if explicit_integer_bit k then 1 else 0)).
Proof.
  destruct k; cbn [decompose lookup explicit_integer_bit].
  - eexists; split; [reflexivity |]. unfold decompose_fixed.
    cbn [f_sign f_exponent f_significand].
    repeat split; try apply (get_bits_range _ 1); try apply get_bits_range;
      try (cbn; lia); apply (get_bits_range 0 23); lia.
  - eexists; split; [reflexivity |]. unfold decompose_fixed.
    cbn [f_sign f_exponent f_significand].
    repeat split; try apply (get_bits_range _ 1); try apply get_bits_range;
      try (cbn; lia); apply (get_bits_range 0 52); lia.
  - eexists; split.
    + destruct little;
        apply (decompose_overlay_found _ _ raw (79, 1) (64, 15) (32, 32) (0, 32));
        reflexivity.
    + cbn [f_sign f_exponent f_significand fst snd].
      repeat split; try apply (get_bits_range _ 1); try apply (get_bits_range _ 15);
        try lia; apply (joined_words_range 32 32); lia.
  - eexists; split.
    + destruct little;
        apply (decompose_overlay_found _ _ raw (127, 1) (112, 15) (64, 48) (0, 64));
        reflexivity.
    + cbn [f_sign f_exponent f_significand fst snd].
      repeat split; try apply (get_bits_range _ 1); try apply (get_bits_range _ 15);
        try lia; apply (joined_words_range 64 48); lia.
Qed.

(** * More on the constant tables *)

(** X1: in each descriptor the greatest exponent is 2^(exponent_bits - 1) - 1,
    the least one is 1 minus the greatest, and the bias is the greatest
    exponent up to its sign. *)
Theorem exponent_constants_related (k : BinaryKind) :
  max_exponent (lookup k) = 2 ^ (exponent_bits (lookup k) - 1) - 1
  /\ min_exponent (lookup k) = 1 - max_exponent (lookup k)
  /\ Z.abs (exponent_bias (lookup k)) = max_exponent (lookup k).
Proof. destruct k; repeat split. Qed.

(** X2: [decimal_digits] counts two different things.  For binary32 and
    binary64 it is the number of digits that tells all values of the
    precision apart (9 and 17); for binary80 and binary128 it is the number
    of digits the precision always keeps (18 and 33), which is less than
    the digits needed to tell all values apart. *)
Theorem decimal_digits_two_meanings :
  is_max_digits10 (significand_bits ieee754_binary32 + 1)
                  (decimal_digits ieee754_binary32)
  /\ is_max_digits10 (significand_bits ieee754_binary64 + 1)
                     (decimal_digits ieee754_binary64)
  /\ is_digits10 (significand_bits ieee754_binary80 + 1)
                 (decimal_digits ieee754_binary80)
  /\ is_digits10 (significand_bits ieee754_binary128 + 1)
                 (decimal_digits ieee754_binary128)
  /\ is_max_digits10 (significand_bits ieee754_binary80 + 1) 21
  /\ is_max_digits10 (significand_bits ieee754_binary128 + 1) 36.
Proof. repeat split. Qed.

(** X3: a geometry the selection recognises is the one of its descriptor:
    [LDBL_MANT_DIG] is the significand with its leading bit and
    [LDBL_MAX_EXP] is one more than the greatest exponent. *)
Theorem recognised_geometry_matches_descriptor (m e : Z) (d : FormatDescriptor) :
  layout_descriptor (long_double_layout m e) = Some d ->
  m = significand_bits d + 1 /\ e = max_exponent d + 1.
Proof.
  destruct (long_double_layout_cases m e)
    as [(-> & -> & H) | [(-> & -> & H) | [(-> & -> & H) | (_ & _ & _ & H)]]];
    rewrite H; cbn [layout_descriptor]; intros E;
    try discriminate E; injection E as <-; split; reflexivity.
Qed.

Lemma recognised_geometry_x87 :
  layout_descriptor (long_double_layout 64 16384) = Some ieee754_binary80
  /\ 64 = significand_bits ieee754_binary80 + 1
  /\ 16384 = max_exponent ieee754_binary80 + 1.
Proof.
  assert (H : layout_descriptor (long_double_layout 64 16384) = Some ieee754_binary80)
    by reflexivity.
  split; [exact H |].
  exact (recognised_geometry_matches_descriptor 64 16384 ieee754_binary80 H).
Defined.

(** X5: the members of every overlay have distinct names, and each fits the
    integer type it is declared with. *)
Theorem overlays_well_formed (o : overlay_name) (little : bool) :
  NoDup (map bf_name (overlay_of o little))
  /\ forallb fits_type (overlay_of o little) = true.
Proof.
  split; [| destruct o, little; reflexivity].
  destruct o, little; cbn; repeat constructor; cbn; intuition discriminate.
Qed.

(** X4: the width a branch announces, the members that carry the value, and
    the descriptor's fields all agree; only the 80-bit format stores one
    bit more than sign, exponent and significand. *)
Theorem ldbl_bits_match_descriptor (k : LayoutKind) (little : bool) :
  option_map value_bits (IEEEl2bits k little) = BOOST_CHARCONV_LDBL_BITS k
  /\ option_map (fun d => 1 + exponent_bits d + significand_bits d
                          + match k with Extended80 => 1 | _ => 0 end)
                (layout_descriptor k)
     = BOOST_CHARCONV_LDBL_BITS k.
Proof. destruct k, little; split; reflexivity. Qed.

(** * Members do not overlap *)

Lemma member_eqb_eq (a b : member) : member_eqb a b = true -> a = b.
Proof. destruct a, b; cbn; intros E; try discriminate E; reflexivity. Qed.

Lemma member_eqb_refl (a : member) : member_eqb a a = true.
Proof. destruct a; reflexivity. Qed.

Lemma fits_type_positive (f : bit_field) : fits_type f = true -> 0 < bf_width f.
Proof.
  unfold fits_type. rewrite andb_true_iff, Z.ltb_lt. tauto.
Qed.

Lemma sum_widths_nonneg (fs : overlay) :
  forallb fits_type fs = true -> 0 <= sum_widths fs.
Proof.
  induction fs as [| f rest IH]; cbn [forallb]; intros W.
  - cbn. lia.
  - apply andb_true_iff in W. destruct W as [Wf Wr].
    apply fits_type_positive in Wf. specialize (IH Wr).
    change (sum_widths (f :: rest)) with (bf_width f + sum_widths rest). lia.
Qed.

(** A member found among the members laid out from [pos] lies between
    [pos] and the end of the struct. *)
Lemma find_member_place_bounds (m : member) (fs : overlay) :
  forallb fits_type fs = true ->
  forall pos s w,
    find_member m (place pos fs) = Some (s, w) ->
    pos <= s /\ 0 < w /\ s + w <= pos + sum_widths fs.
Proof.
  induction fs as [| f rest IH]; cbn [forallb place find_member]; intros W pos s w F.
  - discriminate F.
  - apply andb_true_iff in W. destruct W as [Wf Wr].
    pose proof (fits_type_positive f Wf) as Pf.
    pose proof (sum_widths_nonneg rest Wr) as Nr.
    change (sum_widths (f :: rest)) with (bf_width f + sum_widths rest).
    destruct (member_eqb m (bf_name f)).
    + injection F as <- <-. lia.
    + destruct (IH Wr _ _ _ F) as (B1 & B2 & B3). lia.
Qed.

(** Two members with different names occupy disjoint ranges of bits. *)
Lemma find_member_place_disjoint (m m' : member) (fs : overlay) :
  forallb fits_type fs = true ->
  member_eqb m m' = false ->
  forall pos s w s' w',
    find_member m (place pos fs) = Some (s, w) ->
    find_member m' (place pos fs) = Some (s', w') ->
    s + w <= s' \/ s' + w' <= s.
Proof.
  intros W D. induction fs as [| f rest IH]; cbn [place find_member];
    intros pos s w s' w' F F'.
  - discriminate F.
  - cbn [forallb] in W. apply andb_true_iff in W. destruct W as [Wf Wr].
    destruct (member_eqb m (bf_name f)) eqn:E, (member_eqb m' (bf_name f)) eqn:E'.
    + apply member_eqb_eq in E, E'. subst m m'.
      rewrite member_eqb_refl in D. discriminate D.
    + injection F as <- <-.
      destruct (find_member_place_bounds m' rest Wr _ _ _ F') as (B & _). lia.
    + injection F' as <- <-.
      destruct (find_member_place_bounds m rest Wr _ _ _ F) as (B & _). lia.
    + exact (IH Wr _ _ _ _ _ F F').
Qed.

(** Where a member sits under either allocation, from where it sits in
    declaration order. *)
Lemma find_member_shifts_inv (little : bool) (m : member) (fs : overlay) (s w : Z) :
  find_member m (shifts little fs) = Some (s, w) ->
  exists off,
    find_member m (place 0 fs) = Some (off, w)
    /\ s = if little then off else declared_bits fs - off - w.
Proof.
  destruct little.
  - intros F. exists s. split; [exact F | reflexivity].
  - rewrite shifts_big_endian.
    rewrite (find_member_map
               (fun sw => (declared_bits fs - fst sw - snd sw, snd sw))).
    destruct (find_member m (place 0 fs)) as [[off w0] |]; cbn; intros F.
    + injection F as <- <-. exists off. split; reflexivity.
    + discriminate F.
Qed.

Lemma find_member_shifts_bounds (little : bool) (m : member) (fs : overlay) (s w : Z) :
  forallb fits_type fs = true ->
  find_member m (shifts little fs) = Some (s, w) ->
  0 <= s /\ 0 < w /\ s + w <= declared_bits fs.
Proof.
  intros W F. destruct (find_member_shifts_inv _ _ _ _ _ F) as (off & F0 & ->).
  destruct (find_member_place_bounds m fs W _ _ _ F0) as (B1 & B2 & B3).
  unfold declared_bits. destruct little; lia.
Qed.

Lemma find_member_shifts_disjoint (little : bool) (m m' : member) (fs : overlay)
      (s w s' w' : Z) :
  forallb fits_type fs = true ->
  member_eqb m m' = false ->
  find_member m (shifts little fs) = Some (s, w) ->
  find_member m' (shifts little fs) = Some (s', w') ->
  s + w <= s' \/ s' + w' <= s.
Proof.
  intros W D F F'.
  destruct (find_member_shifts_inv _ _ _ _ _ F) as (off & F0 & ->).
  destruct (find_member_shifts_inv _ _ _ _ _ F') as (off' & F0' & ->).
  pose proof (find_member_place_disjoint m m' fs W D _ _ _ _ _ F0 F0') as Dj.
  destruct little; lia.
Qed.

(** * A member read after a write *)

Lemma get_bits_set_bits_same (s w v st : Z) :
  0 <= s -> 0 <= w ->
  get_bits s w (set_bits s w v st) = v mod 2 ^ w.
Proof.
  intros Hs Hw. rewrite <- Z.land_ones by exact Hw.
  apply Z.bits_inj'. intros n Hn. bits_rewrite.
  destruct (Z.lt_ge_cases n w); bits_close.
Qed.

Lemma get_bits_set_bits_other (s w s' w' v st : Z) :
  0 <= s -> 0 <= w -> 0 <= s' -> 0 <= w' ->
  s + w <= s' \/ s' + w' <= s ->
  get_bits s' w' (set_bits s w v st) = get_bits s' w' st.
Proof.
  intros Hs Hw Hs' Hw' D.
  apply Z.bits_inj'. intros n Hn. bits_rewrite.
  destruct (Z.lt_ge_cases n w'); [| bits_close].
  destruct D; bits_close.
Qed.

(** X7: reading a member just written gives the value written, cut to the
    member's width. *)
Theorem read_own_write (little : bool) (fs : overlay) (m : member) (s w v st : Z) :
  forallb fits_type fs = true ->
  find_member m (shifts little fs) = Some (s, w) ->
  bind (write_member (shifts little fs) m v st) (read_member (shifts little fs) m)
  = Some (v mod 2 ^ w).
Proof.
  intros W F. unfold write_member, read_member. rewrite F. cbn [bind fst snd].
  destruct (find_member_shifts_bounds little m fs s w W F) as (B1 & B2 & _).
  f_equal. apply get_bits_set_bits_same; lia.
Qed.

Lemma read_own_write_exponent_x87 :
  forallb fits_type (IEEEl2bits_80 true) = true
  /\ find_member exponent (shifts true (IEEEl2bits_80 true)) = Some (64, 15)
  /\ bind (write_member (shifts true (IEEEl2bits_80 true)) exponent 32768 (2 ^ 80 - 1))
          (read_member (shifts true (IEEEl2bits_80 true)) exponent)
     = Some (32768 mod 2 ^ 15).
Proof.
  assert (W : forallb fits_type (IEEEl2bits_80 true) = true) by reflexivity.
  assert (F : find_member exponent (shifts true (IEEEl2bits_80 true)) = Some (64, 15))
    by reflexivity.
  split; [exact W | split; [exact F |]].
  exact (read_own_write true (IEEEl2bits_80 true) exponent 64 15 32768 (2 ^ 80 - 1) W F).
Defined.

(** X8: writing a member leaves what every other member reads unchanged. *)
Theorem write_keeps_other_members (little : bool) (fs : overlay) (m m' : member)
        (sw : Z * Z) (v st : Z) :
  forallb fits_type fs = true ->
  member_eqb m m' = false ->
  find_member m (shifts little fs) = Some sw ->
  bind (write_member (shifts little fs) m v st) (read_member (shifts little fs) m')
  = read_member (shifts little fs) m' st.
Proof.
  intros W D F. destruct sw as [s w].
  unfold write_member, read_member. rewrite F. cbn [bind fst snd].
  destruct (find_member m' (shifts little fs)) as [[s' w'] |] eqn:F'; cbn [bind fst snd].
  - destruct (find_member_shifts_bounds little m fs s w W F) as (B1 & B2 & _).
    destruct (find_member_shifts_bounds little m' fs s' w' W F') as (B1' & B2' & _).
    pose proof (find_member_shifts_disjoint little m m' fs s w s' w' W D F F') as Dj.
    f_equal. apply get_bits_set_bits_other; lia.
  - reflexivity.
Qed.

Lemma write_keeps_other_members_quad :
  forallb fits_type (IEEEbinary128 false) = true
  /\ member_eqb sign mantissa_h = false
  /\ find_member sign (shifts false (IEEEbinary128 false)) = Some (127, 1)
  /\ bind (write_member (shifts false (IEEEbinary128 false)) sign 1 (2 ^ 100))
          (read_member (shifts false (IEEEbinary128 false)) mantissa_h)
     = read_member (shifts false (IEEEbinary128 false)) mantissa_h (2 ^ 100).
Proof.
  assert (W : forallb fits_type (IEEEbinary128 false) = true) by reflexivity.
  assert (D : member_eqb sign mantissa_h = false) by reflexivity.
  assert (F : find_member sign (shifts false (IEEEbinary128 false)) = Some (127, 1))
    by reflexivity.
  split; [exact W | split; [exact D | split; [exact F |]]].
  exact (write_keeps_other_members false (IEEEbinary128 false) sign mantissa_h
           (127, 1) 1 (2 ^ 100) W D F).
Defined.

(** * Composing, then decomposing *)

Lemma overlay_inverse_bits (lw hw ew sw s e sig : Z) :
  0 <= lw -> 0 <= hw -> 0 <= ew -> 0 <= sw ->
  let r := set_bits 0 lw sig
             (set_bits lw hw (Z.shiftr sig lw)
                (set_bits (lw + hw) ew e
                   (set_bits (lw + hw + ew) sw s 0))) in
  get_bits (lw + hw + ew) sw r = Z.land s (Z.ones sw)
  /\ get_bits (lw + hw) ew r = Z.land e (Z.ones ew)
  /\ Z.lor (Z.shiftl (get_bits lw hw r) lw) (get_bits 0 lw r)
     = Z.land sig (Z.ones (lw + hw))
  /\ Z.land r (Z.ones (lw + hw + ew + sw)) = r.
Proof.
  intros Hl Hh He Hs r. subst r. repeat split.
  - apply Z.bits_inj'. intros n Hn. bits_rewrite.
    destruct (Z.lt_ge_cases n sw); bits_close.
  - apply Z.bits_inj'. intros n Hn. bits_rewrite.
    destruct (Z.lt_ge_cases n ew); bits_close.
  - apply Z.bits_inj'. intros n Hn. bits_rewrite.
    destruct (Z.lt_ge_cases n lw); [bits_close |].
    destruct (Z.lt_ge_cases n (lw + hw)); bits_close.
  - apply Z.bits_inj'. intros n Hn. bits_rewrite.
    destruct (Z.lt_ge_cases n lw); [bits_close |].
    destruct (Z.lt_ge_cases n (lw + hw)); [bits_close |].
    destruct (Z.lt_ge_cases n (lw + hw + ew)); [bits_close |].
    destruct (Z.lt_ge_cases n (lw + hw + ew + sw)); bits_close.
Qed.

Lemma fixed_inverse_bits (mw ew sw s e sig : Z) :
  0 <= mw -> 0 <= ew -> 0 <= sw ->
  let r := set_bits 0 mw sig
             (set_bits mw ew e (set_bits (mw + ew) sw s 0)) in
  get_bits (mw + ew) sw r = Z.land s (Z.ones sw)
  /\ get_bits mw ew r = Z.land e (Z.ones ew)
  /\ get_bits 0 mw r = Z.land sig (Z.ones mw)
  /\ Z.land r (Z.ones (mw + ew + sw)) = r.
Proof.
  intros Hm He Hs r. subst r. repeat split.
  - apply Z.bits_inj'. intros n Hn. bits_rewrite.
    destruct (Z.lt_ge_cases n sw); bits_close.
  - apply Z.bits_inj'. intros n Hn. bits_rewrite.
    destruct (Z.lt_ge_cases n ew); bits_close.
  - apply Z.bits_inj'. intros n Hn. bits_rewrite.
    destruct (Z.lt_ge_cases n mw); bits_close.
  - apply Z.bits_inj'. intros n Hn. bits_rewrite.
    destruct (Z.lt_ge_cases n mw); [bits_close |].
    destruct (Z.lt_ge_cases n (mw + ew)); [bits_close |].
    destruct (Z.lt_ge_cases n (mw + ew + sw)); bits_close.
Qed.

(** What composing returns, and what decomposing it gives back, for an
    overlay whose four members are packed from bit 0. *)
Lemma overlay_inverse (little : bool) (fs : overlay) (lw hw ew sw : Z) (f : Fields) :
  0 <= lw -> 0 <= hw -> 0 <= ew -> 0 <= sw ->
  find_member mantissa_l (shifts little fs) = Some (0, lw) ->
  find_member mantissa_h (shifts little fs) = Some (lw, hw) ->
  find_member exponent (shifts little fs) = Some (lw + hw, ew) ->
  find_member sign (shifts little fs) = Some (lw + hw + ew, sw) ->
  exists raw,
    compose_overlay little fs f = Some raw
    /\ 0 <= raw < 2 ^ (lw + hw + ew + sw)
    /\ decompose_overlay little fs raw
       = Some (MkFields (Z.land (f_sign f) (Z.ones sw))
                        (Z.land (f_exponent f) (Z.ones ew))
                        (Z.land (f_significand f) (Z.ones (lw + hw)))).
Proof.
  intros Hl Hh He Hs Fl Fh Fe Fs.
  rewrite (compose_overlay_found little fs f _ _ _ _ Fs Fe Fh Fl).
  cbn [fst snd]. eexists. split; [reflexivity |].
  destruct (overlay_inverse_bits lw hw ew sw (f_sign f) (f_exponent f)
              (f_significand f) Hl Hh He Hs) as (Es & Ee & Em & Er).
  cbv zeta in Es, Ee, Em, Er. split.
  - rewrite <- Er, Z.land_ones by lia.
    apply Z.mod_pos_bound. apply Z.pow_pos_nonneg; lia.
  - rewrite (decompose_overlay_found little fs _ _ _ _ _ Fs Fe Fh Fl).
    cbn [fst snd]. rewrite Es, Ee, Em. reflexivity.
Qed.

Lemma header_overlay_inverse (o : overlay_name) (little : bool) (f : Fields) :
  exists raw,
    compose_overlay little (overlay_of o little) f = Some raw
    /\ 0 <= raw < 2 ^ format_bits o
    /\ decompose_overlay little (overlay_of o little) raw
       = Some (MkFields (Z.land (f_sign f) (Z.ones 1))
                        (Z.land (f_exponent f)
                                (Z.ones (exponent_bits (descriptor_of o))))
                        (Z.land (f_significand f)
                                (Z.ones (significand_bits (descriptor_of o)
                                         + match o with L2bits80 => 1 | _ => 0 end)))).
Proof.
  destruct o, little;
    [ apply (overlay_inverse _ _ 32 32 15 1) | apply (overlay_inverse _ _ 32 32 15 1)
    | apply (overlay_inverse _ _ 64 48 15 1) | apply (overlay_inverse _ _ 64 48 15 1)
    | apply (overlay_inverse _ _ 32 20 11 1) | apply (overlay_inverse _ _ 32 20 11 1)
    | apply (overlay_inverse _ _ 64 48 15 1) | apply (overlay_inverse _ _ 64 48 15 1) ];
    first [ lia | reflexivity ].
Qed.

Lemma fixed_inverse (d : FormatDescriptor) (f : Fields) :
  0 <= significand_bits d -> 0 <= exponent_bits d ->
  0 <= compose_fixed d f < 2 ^ (significand_bits d + exponent_bits d + 1)
  /\ decompose_fixed d (compose_fixed d f)
     = MkFields (Z.land (f_sign f) (Z.ones 1))
                (Z.land (f_exponent f) (Z.ones (exponent_bits d)))
                (Z.land (f_significand f) (Z.ones (significand_bits d))).
Proof.
  intros Hm He.
  destruct (fixed_inverse_bits (significand_bits d) (exponent_bits d) 1
              (f_sign f) (f_exponent f) (f_significand f) Hm He ltac:(lia))
    as (Es & Ee & Em & Er).
  cbv zeta in Es, Ee, Em, Er. fold (compose_fixed d f) in Es, Ee, Em, Er. split.
  - rewrite <- Er, Z.land_ones by lia.
    apply Z.mod_pos_bound. apply Z.pow_pos_nonneg; lia.
  - unfold decompose_fixed. rewrite Es, Ee, Em. reflexivity.
Qed.

Lemma compose_then_decompose (k : BinaryKind) (little : bool) (f : Fields) :
  exists raw,
    compose k little f = Some raw
    /\ 0 <= raw < 2 ^ kind_bits k
    /\ decompose k little raw = Some (truncate_fields k f).
Proof.
  destruct k; cbn [compose decompose].
  - destruct (fixed_inverse ieee754_binary32 f) as (R & E); try (cbn; lia).
    eexists. split; [reflexivity |]. split; [exact R |]. rewrite E. reflexivity.
  - destruct (fixed_inverse ieee754_binary64 f) as (R & E); try (cbn; lia).
    eexists. split; [reflexivity |]. split; [exact R |]. rewrite E. reflexivity.
  - exact (header_overlay_inverse L2bits80 little f).
  - exact (header_overlay_inverse Binary128 little f).
Qed.

Lemma truncate_fields_in_range (k : BinaryKind) (f : Fields) :
  fields_in_range k f -> truncate_fields k f = f.
Proof.
  intros (Hs & He & Hm). destruct f as [s e m]. unfold truncate_fields.
  cbn [f_sign f_exponent f_significand] in *.
  rewrite (land_ones_small 1 s), (land_ones_small _ e), (land_ones_small _ m);
    try assumption; try reflexivity; destruct k; cbn; lia.
Qed.

(** X10: composing fields that are within their widths and decomposing the
    result gives the fields back. *)
Theorem compose_decompose_roundtrip (k : BinaryKind) (little : bool) (f : Fields) :
  fields_in_range k f ->
  bind (compose k little f) (decompose k little) = Some f.
Proof.
  intros R. destruct (compose_then_decompose k little f) as (raw & C & _ & D).
  rewrite C. cbn [bind]. rewrite D, (truncate_fields_in_range k f R). reflexivity.
Qed.

Lemma compose_decompose_roundtrip_pseudo_denormal :
  fields_in_range binary80 (MkFields 1 0 (2 ^ 63))
  /\ bind (compose binary80 false (MkFields 1 0 (2 ^ 63))) (decompose binary80 false)
     = Some (MkFields 1 0 (2 ^ 63)).
Proof.
  assert (R : fields_in_range binary80 (MkFields 1 0 (2 ^ 63)))
    by (vm_compute; repeat split; discriminate).
  split; [exact R |].
  exact (compose_decompose_roundtrip binary80 false (MkFields 1 0 (2 ^ 63)) R).
Defined.

(** X11: whatever the fields, the composed pattern has no bit at or above the
    width of the kind: fields too wide are cut, and the padding of the
    80-bit overlay is left zero. *)
Theorem compose_within_width (k : BinaryKind) (little : bool) (f : Fields) :
  exists raw, compose k little f = Some raw /\ 0 <= raw < 2 ^ kind_bits k.
Proof.
  destruct (compose_then_decompose k little f) as (raw & C & R & _).
  exists raw. split; assumption.
Qed.

(** X12: fields wider than the kind allows are cut to its widths by the round
    through the raw pattern. *)
Theorem compose_truncates (k : BinaryKind) (little : bool) (f : Fields) :
  bind (compose k little f) (decompose k little) = Some (truncate_fields k f).
Proof.
  destruct (compose_then_decompose k little f) as (raw & C & _ & D).
  rewrite C. exact D.
Qed.

(** * Bits that are not read *)

Lemma get_bits_low (s w n raw : Z) :
  0 <= s -> 0 <= w -> s + w <= n ->
  get_bits s w (raw mod 2 ^ n) = get_bits s w raw.
Proof.
  intros Hs Hw Hn. rewrite <- Z.land_ones by lia.
  apply Z.bits_inj'. intros i Hi. bits_rewrite.
  destruct (Z.lt_ge_cases i w); bits_close.
Qed.

(** X14: decomposing reads the bits below the width of the kind and nothing
    else: bits above it, the padding of the 80-bit overlay among them, do
    not change the fields. *)
Theorem decompose_ignores_high_bits (k : BinaryKind) (little : bool) (raw : Z) :
  decompose k little (raw mod 2 ^ kind_bits k) = decompose k little raw.
Proof.
  destruct k; cbn [decompose].
  - unfold decompose_fixed. change (kind_bits binary32) with 32.
    cbn [significand_bits exponent_bits ieee754_binary32].
    rewrite !get_bits_low by lia. reflexivity.
  - unfold decompose_fixed. change (kind_bits binary64) with 64.
    cbn [significand_bits exponent_bits ieee754_binary64].
    rewrite !get_bits_low by lia. reflexivity.
  - change (kind_bits binary80) with 80.
    assert (F : forall r,
               decompose_overlay little (IEEEl2bits_80 little) r
               = Some (MkFields (get_bits 79 1 r) (get_bits 64 15 r)
                         (Z.lor (Z.shiftl (get_bits 32 32 r) 32) (get_bits 0 32 r)))).
    { intros r. destruct little;
        apply (decompose_overlay_found _ _ r (79, 1) (64, 15) (32, 32) (0, 32));
        reflexivity. }
    rewrite !F, !get_bits_low by lia. reflexivity.
  - change (kind_bits binary128) with 128.
    assert (F : forall r,
               decompose_overlay little (IEEEbinary128 little) r
               = Some (MkFields (get_bits 127 1 r) (get_bits 112 15 r)
                         (Z.lor (Z.shiftl (get_bits 64 48 r) 64) (get_bits 0 64 r)))).
    { intros r. destruct little;
        apply (decompose_overlay_found _ _ r (127, 1) (112, 15) (64, 48) (0, 64));
        reflexivity. }
    rewrite !F, !get_bits_low by lia. reflexivity.
Qed.

(** * Members allocated by storage units *)

Lemma fits_type_bounds (f : bit_field) :
  fits_type f = true -> 0 < bf_width f <= type_bits (bf_type f).
Proof.
  unfold fits_type. rewrite andb_true_iff, Z.ltb_lt, Z.leb_le. tauto.
Qed.

(** A member never starts before the next free bit, and never crosses a
    boundary of its declared type. *)
Lemma unit_start_spec (pos u w : Z) :
  0 < w <= u -> 0 <= pos ->
  pos <= unit_start pos u w /\ unit_start pos u w mod u + w <= u.
Proof.
  intros Hw Hp. unfold unit_start.
  destruct (Z.leb_spec (pos mod u + w) u) as [Fit | Cross].
  - split; [lia | exact Fit].
  - split.
    + pose proof (Z.div_mod pos u ltac:(lia)) as E.
      pose proof (Z.mod_pos_bound pos u ltac:(lia)) as B. nia.
    + rewrite Z.mod_mul by lia. lia.
Qed.

Lemma units_end_ge (fs : overlay) :
  forallb fits_type fs = true ->
  forall pos, 0 <= pos -> pos <= units_end pos fs.
Proof.
  induction fs as [| f rest IH]; cbn [forallb units_end]; intros W pos Hp.
  - lia.
  - apply andb_true_iff in W. destruct W as [Wf Wr].
    pose proof (fits_type_bounds f Wf) as Bf.
    destruct (unit_start_spec pos (type_bits (bf_type f)) (bf_width f) Bf Hp) as [S _].
    specialize (IH Wr (unit_start pos (type_bits (bf_type f)) (bf_width f) + bf_width f)).
    lia.
Qed.

Lemma place_units_bounds (m : member) (fs : overlay) :
  forallb fits_type fs = true ->
  forall pos s w,
    0 <= pos ->
    find_member m (place_units pos fs) = Some (s, w) ->
    pos <= s /\ 0 < w /\ s + w <= units_end pos fs.
Proof.
  induction fs as [| f rest IH]; cbn [forallb place_units units_end find_member];
    intros W pos s w Hp F.
  - discriminate F.
  - apply andb_true_iff in W. destruct W as [Wf Wr].
    pose proof (fits_type_bounds f Wf) as Bf.
    destruct (unit_start_spec pos (type_bits (bf_type f)) (bf_width f) Bf Hp) as [S _].
    set (s0 := unit_start pos (type_bits (bf_type f)) (bf_width f)) in *.
    destruct (member_eqb m (bf_name f)).
    + injection F as <- <-.
      pose proof (units_end_ge rest Wr (s0 + bf_width f) ltac:(lia)). lia.
    + destruct (IH Wr (s0 + bf_width f) s w ltac:(lia) F) as (B1 & B2 & B3). lia.
Qed.

Lemma alignment_bits_positive (fs : overlay) : 8 <= alignment_bits fs.
Proof.
  unfold alignment_bits. induction fs as [| f rest IH]; cbn [map fold_right]; lia.
Qed.

Lemma struct_bits_covers (fs : overlay) : units_end 0 fs <= struct_bits fs.
Proof.
  unfold struct_bits. pose proof (alignment_bits_positive fs) as A.
  set (a := alignment_bits fs) in *. set (e := units_end 0 fs).
  pose proof (Z.div_mod (e + a - 1) a ltac:(lia)) as E.
  pose proof (Z.mod_pos_bound (e + a - 1) a ltac:(lia)) as B. nia.
Qed.

(** The overlays of the header, allocated by storage units.  The 64-bit
    and 128-bit structs are filled without a gap; in the 80-bit struct
    [pad] does not fit the unit that [exponent] and [sign] begin, so 16
    bits stay unnamed and the struct takes 128 bits. *)
Lemma header_unit_layout :
  place_units 0 (IEEEl2bits_80 true)
  = [ (mantissa_l, (0, 32)); (mantissa_h, (32, 32)); (exponent, (64, 15));
      (sign, (79, 1)); (pad, (96, 32)) ]
  /\ place_units 0 (IEEEl2bits_80 false)
     = [ (pad, (0, 32)); (sign, (32, 1)); (exponent, (33, 15));
         (mantissa_h, (64, 32)); (mantissa_l, (96, 32)) ]
  /\ map (fun o => struct_bits (overlay_of o true)) [L2bits80; L2bits128; L2bits64; Binary128]
     = [128; 128; 64; 128]
  /\ map (fun o => struct_bits (overlay_of o false)) [L2bits80; L2bits128; L2bits64; Binary128]
     = [128; 128; 64; 128]
  /\ (forall o, place_units 0 (overlay_of o true)
                = match o with
                  | L2bits80 => place_units 0 (IEEEl2bits_80 true)
                  | _ => place 0 (overlay_of o true)
                  end).
Proof. repeat split. intros o; destruct o; reflexivity. Qed.

(** In the little-endian declarations the members that carry the value
    are allocated where the gap-free table has them; only [pad] is not. *)
Lemma value_members_where_packed (o : overlay_name) :
  map (fun m => find_member m (place_units 0 (overlay_of o true))) value_members
  = map (fun m => find_member m (shifts true (overlay_of o true))) value_members
  /\ find_member pad (place_units 0 (IEEEl2bits_80 true)) = Some (96, 32)
  /\ find_member pad (shifts true (IEEEl2bits_80 true)) = Some (80, 32).
Proof. destruct o; repeat split. Qed.

(** X9: allocated by storage units, a write to a member never changes a
    bit at or above the size of the struct. *)
Theorem write_stays_in_storage (fs : overlay) (m : member) (sw : Z * Z) (v st n : Z) :
  forallb fits_type fs = true ->
  find_member m (place_units 0 fs) = Some sw ->
  struct_bits fs <= n ->
  option_map (fun r => Z.testbit r n) (write_member (place_units 0 fs) m v st)
  = Some (Z.testbit st n).
Proof.
  intros W F Hn. destruct sw as [s w].
  unfold write_member. rewrite F. cbn [bind fst snd option_map].
  destruct (place_units_bounds m fs W 0 s w ltac:(lia) F) as (B1 & B2 & B3).
  pose proof (struct_bits_covers fs) as C.
  f_equal. bits_rewrite. bits_close.
Qed.

Lemma write_stays_in_storage_pad :
  forallb fits_type (IEEEl2bits_80 true) = true
  /\ find_member pad (place_units 0 (IEEEl2bits_80 true)) = Some (96, 32)
  /\ struct_bits (IEEEl2bits_80 true) <= 128
  /\ option_map (fun r => Z.testbit r 128)
                (write_member (place_units 0 (IEEEl2bits_80 true)) pad (-1) 0)
     = Some (Z.testbit 0 128).
Proof.
  assert (W : forallb fits_type (IEEEl2bits_80 true) = true) by reflexivity.
  assert (F : find_member pad (place_units 0 (IEEEl2bits_80 true)) = Some (96, 32))
    by reflexivity.
  assert (B : struct_bits (IEEEl2bits_80 true) <= 128) by (vm_compute; discriminate).
  split; [exact W | split; [exact F | split; [exact B |]]].
  exact (write_stays_in_storage (IEEEl2bits_80 true) pad (96, 32) (-1) 0 128 W F B).
Defined.

(** The same write does set the bits of [pad], bit 112 among them, which
    lies above the 112 bits the members declare. *)
Lemma write_pad_sets_bit_112 :
  option_map (fun r => Z.testbit r 112)
             (write_member (place_units 0 (IEEEl2bits_80 true)) pad (-1) 0)
  = Some true
  /\ declared_bits (IEEEl2bits_80 true) = 112.
Proof. split; reflexivity. Qed.
